(** * SerialManager: line-based serial command interpreter of the Tympan sketch

    A shallow embedding of [src/SerialManager.h].  The class keeps a
    64-byte line buffer and a [uint8_t] length; [respondToByte] is called
    for every received character and runs [processLine_] on newline.

    - characters are 8-bit [ascii] values, the buffer is a [list ascii]
      updated by index (stdpp's [<[i:=x]>]; an out-of-range store is a no-op
      there and undefined in C: the buffer invariant below shows that no
      store ever leaves the array);
    - a [const char *] is the list of bytes from the pointer on: [*line] is
      the head, [line++] the tail;
    - the sketch's globals and functions ([extern] in the header) are an
      interface, class [Sketch];
    - everything written to [Serial] and every call into the sketch is
      recorded, in program order, in a trace of events. *)

From Stdlib Require Import ZArith Ascii String List Floats.SpecFloat Lia.
From stdpp Require Import base list.

Local Open Scope nat_scope.
Local Open Scope char_scope.

(** ** C types and library functions *)

(** C [float]: IEEE 754 binary32 values, as the Standard Library's
    specification floats with a 24-bit significand. *)
Definition float : Type := spec_float.
Definition prec32 : Z := 24.
Definition emax32 : Z := 128.

(** [0.0f] *)
Definition float_zero : float := S754_zero false.

(** [10.0f] and [25.0f]: 10 = 10485760 * 2^-20, 25 = 13107200 * 2^-19. *)
Definition float_10 : float := S754_finite false 10485760 (-20).
Definition float_25 : float := S754_finite false 13107200 (-19).

Definition NUL : ascii := "000".
Definition CR : ascii := "013".
Definition LF : ascii := "010".

(** [isspace] of <ctype.h> in the C locale: space, \t, \n, \v, \f, \r. *)
Definition isspace (c : ascii) : bool :=
  let n := nat_of_ascii c in
  ((n =? 32) || ((9 <=? n) && (n <=? 13)))%nat.

(** [*p]: the byte under the pointer.  A read past the end of the modelled
    memory yields NUL, so a list without a NUL reads as a string that ends
    where the list ends. *)
Definition deref (p : list ascii) : ascii := hd NUL p.

(** The characters of a string literal. *)
Definition chars (s : string) : list ascii := list_ascii_of_string s.

(** C truth value of a [char]. *)
Definition nonzero (c : ascii) : bool := negb (c =? NUL).

(** The C string a pointer designates: the bytes before the first NUL. *)
Fixpoint c_str (p : list ascii) : list ascii :=
  match p with
  | [] => []
  | c :: rest => if nonzero c then c :: c_str rest else []
  end.

(** [cmd_len_++] on a [uint8_t]. *)
Definition uint8_incr (n : nat) : nat := (n + 1) mod 256.

(** ** Serial output and calls into the sketch *)

(** What [Serial.print] is given: a string literal, a [char], or a [float]
    with the number of decimals ([Serial.print(x)] prints two). *)
Inductive printable :=
| P_str (s : string)
| P_char (c : ascii)
| P_float (x : float) (digits : nat).

Inductive event :=
| Serial_print (p : printable)
| Serial_println (p : printable)
| Serial_println0
| Call_setVolKnobGain_dB (x : float)
| Call_printGainSettings
| Call_togglePrintMemoryAndCPU
| Call_setDelay_ms (x : float).

Definition is_call (e : event) : bool :=
  match e with
  | Call_setVolKnobGain_dB _ | Call_printGainSettings
  | Call_togglePrintMemoryAndCPU | Call_setDelay_ms _ => true
  | _ => false
  end.

(** The [extern] declarations of the header: the globals the interpreter
    reads and the functions it calls, over the sketch's state [D]. *)
Class Sketch (D : Type) := {
  vol_knob_gain_dB : D -> float;
  delay_ms : D -> float;
  setVolKnobGain_dB : float -> D -> D;
  printGainSettings : D -> D;
  togglePrintMemoryAndCPU : D -> D;
  setDelay_ms : float -> D -> D
}.

(** [strtof] of <stdlib.h>, on the C string at the pointer: the value and
    the number of characters consumed ([endptr - line]). *)
Class CLibrary := { strtof : list ascii -> float * nat }.

(** The world outside the class: the sketch's state and the trace. *)
Record World (D : Type) := mkWorld { sketch : D; trace : list event }.
Arguments mkWorld {D} _ _.
Arguments sketch {D} _.
Arguments trace {D} _.

(** Statements are world transformers, [s1 >>> s2] runs [s1] then [s2]. *)
Definition seq_stmt {W : Type} (s1 s2 : W -> W) : W -> W := fun w => s2 (s1 w).
Infix ">>>" := seq_stmt (at level 61, left associativity).

Definition skip {W : Type} : W -> W := fun w => w.

Section Effects.
Context {D : Type} {SK : Sketch D}.

Definition emit (e : event) (w : World D) : World D :=
  mkWorld (sketch w) (trace w ++ [e]).

Definition call (e : event) (f : D -> D) (w : World D) : World D :=
  mkWorld (f (sketch w)) (trace w ++ [e]).

Definition print (p : printable) : World D -> World D := emit (Serial_print p).
Definition println (p : printable) : World D -> World D := emit (Serial_println p).
Definition println0 : World D -> World D := emit Serial_println0.

(** [Serial.print(delay_ms)]: the global is read when the statement runs. *)
Definition print_delay_ms (w : World D) : World D :=
  print (P_float (delay_ms (sketch w)) 2) w.

(** [Serial.print(vol_knob_gain_dB, 1)] *)
Definition print_vol_knob_gain_dB (w : World D) : World D :=
  print (P_float (vol_knob_gain_dB (sketch w)) 1) w.
End Effects.

(** ** The class *)

Definition CMD_BUFFER_SIZE : nat := 64.

Record SerialManager := mkSerialManager {
  cmd_buffer_ : list ascii;
  cmd_len_ : nat
}.

(** The constructor: [cmd_len_(0)], [cmd_buffer_[0] = '\0'].  The other 63
    bytes are not initialised: [mem] is what the array holds before. *)
Definition SerialManager_new (mem : list ascii) : SerialManager :=
  mkSerialManager (<[0 := NUL]> mem) 0.

Section Interpreter.
Context {D : Type} {SK : Sketch D} {LIB : CLibrary}.

Definition printHelp : World D -> World D :=
  println0 >>>
  println (P_str "SerialManager Help: Available Commands:") >>>
  println (P_str "   h or ?: Print this help") >>>
  println (P_str "   g      : Print the current gain and delay settings") >>>
  println (P_str "   C      : Toggle printing of CPU and Memory usage") >>>
  println (P_str "   k <dB> : Set digital gain in dB (example: k 10)") >>>
  println (P_str "   d <ms> : Set delay time in ms (example: d 25)") >>>
  println0.

(** Lines 57 and 65: advance [line] while [*line] is a non-NUL [isspace]
    character. *)
Fixpoint skip_space (line : list ascii) : list ascii :=
  match line with
  | c :: rest => if nonzero c && isspace c then skip_space rest else line
  | [] => []
  end.

(** Lines 67-74: the optional numeric argument, [(has_arg, arg)]. *)
Definition parse_arg (line : list ascii) : bool * float :=
  if nonzero (deref line) then
    let '(arg, consumed) := strtof (c_str line) in
    (negb (consumed =? 0)%nat, arg)
  else (false, float_zero).

(** Lines 76-115: the [switch (cmd)]. *)
Definition dispatch (cmd : ascii) (has_arg : bool) (arg : float)
  : World D -> World D :=
  match cmd with
  | "h" | "?" => printHelp
  | "g" | "G" =>
      call Call_printGainSettings printGainSettings >>>
      print (P_str "Delay = ") >>> print_delay_ms >>> println (P_str " ms")
  | "C" | "c" =>
      println (P_str "Command Received: toggle printing of memory and CPU usage.") >>>
      call Call_togglePrintMemoryAndCPU togglePrintMemoryAndCPU
  | "k" | "K" =>
      if has_arg then call (Call_setVolKnobGain_dB arg) (setVolKnobGain_dB arg)
      else
        print (P_str "Usage: k <dB>   (current = ") >>>
        print_vol_knob_gain_dB >>>
        println (P_str " dB)")
  | "d" | "D" =>
      if has_arg then call (Call_setDelay_ms arg) (setDelay_ms arg)
      else
        print (P_str "Usage: d <ms>   (current = ") >>>
        print_delay_ms >>>
        println (P_str " ms)")
  | _ =>
      print (P_str "Unknown command: ") >>> println (P_char cmd) >>>
      println (P_str "Type 'h' for help.")
  end.

Definition processLine_ (line : list ascii) : World D -> World D :=
  let line := skip_space line in
  if deref line =? NUL then skip
  else
    let cmd := deref line in
    let line := tl line in
    let line := skip_space line in
    let '(has_arg, arg) := parse_arg line in
    dispatch cmd has_arg arg.

Definition respondToByte (c : ascii) (s : SerialManager * World D)
  : SerialManager * World D :=
  let '(this, w) := s in
  if c =? CR then (this, w)
  else if c =? LF then
    let buf := <[cmd_len_ this := NUL]> (cmd_buffer_ this) in
    let w := processLine_ buf w in
    (mkSerialManager (<[0 := NUL]> buf) 0, w)
  else if (cmd_len_ this <? CMD_BUFFER_SIZE - 1)%nat then
    let buf := <[cmd_len_ this := c]> (cmd_buffer_ this) in
    let len := uint8_incr (cmd_len_ this) in
    (mkSerialManager (<[len := NUL]> buf) len, w)
  else
    (mkSerialManager (<[0 := NUL]> (cmd_buffer_ this)) 0,
     println (P_str "Command too long. Buffer cleared.") w).

(** The sketch's loop: one call per received character. *)
Definition feed (input : list ascii) (s : SerialManager * World D)
  : SerialManager * World D :=
  fold_left (fun s c => respondToByte c s) input s.
End Interpreter.

(** ** A reference [strtof] and a reference sketch

    The theorems below hold for every [strtof] and every sketch; the
    concrete examples run on these two. *)

(** Decimal floating-point literals as <stdlib.h> reads them: optional
    white space, optional sign, digits with an optional decimal point, an
    optional exponent [e|E [sign] digits]; the value is rounded to nearest
    even in binary32.  When no digit is found nothing is consumed.  (The
    hexadecimal, INF and NAN forms that the C library also reads are not
    part of this model.) *)
Module Strtof.

Definition is_digit (c : ascii) : bool :=
  ((48 <=? nat_of_ascii c) && (nat_of_ascii c <=? 57))%nat.

Definition digit_val (c : ascii) : Z := Z.of_nat (nat_of_ascii c - 48).

(** Reads digits: the accumulated value, how many were read, the rest. *)
Fixpoint scan_digits (s : list ascii) (acc : Z) (n : nat)
  : Z * nat * list ascii :=
  match s with
  | c :: rest =>
      if is_digit c then scan_digits rest (10 * acc + digit_val c)%Z (S n)
      else (acc, n, s)
  | [] => (acc, n, [])
  end.

Fixpoint count_space (s : list ascii) : nat :=
  match s with
  | c :: rest => if isspace c then S (count_space rest) else 0
  | [] => 0
  end.

(** An optional sign: negative?, characters read, the rest. *)
Definition scan_sign (s : list ascii) : bool * nat * list ascii :=
  match s with
  | "-" :: rest => (true, 1, rest)
  | "+" :: rest => (false, 1, rest)
  | _ => (false, 0, s)
  end.

(** An optional exponent part: its value and the characters read (none
    unless at least one digit follows the [e]). *)
Definition scan_exponent (s : list ascii) : Z * nat :=
  match s with
  | "e" :: rest | "E" :: rest =>
      let '(neg, nsign, s1) := scan_sign rest in
      let '(e, ne, _) := scan_digits s1 0%Z 0 in
      if (ne =? 0)%nat then (0%Z, 0)
      else ((if neg then - e else e)%Z, 1 + nsign + ne)
  | _ => (0%Z, 0)
  end.

(** The binary32 value nearest to [m * 10^e10], ties to even. *)
Definition of_decimal (neg : bool) (m e10 : Z) : float :=
  match m with
  | Z0 => S754_zero neg
  | Zpos p =>
      if (0 <=? e10)%Z then
        binary_normalize prec32 emax32
          (if neg then - (Zpos p * 10 ^ e10) else Zpos p * 10 ^ e10)%Z 0%Z neg
      else
        let '(mz, ez, lz) :=
          SFdiv_core_binary prec32 emax32 (Zpos p) 0%Z (10 ^ (- e10))%Z 0%Z in
        binary_round_aux prec32 emax32 neg mz ez lz
  | Zneg _ => S754_nan
  end.

Definition strtof (s : list ascii) : float * nat :=
  let nws := count_space s in
  let '(neg, nsign, s1) := scan_sign (drop nws s) in
  let '(m1, nint, s2) := scan_digits s1 0%Z 0 in
  let '(m, nfrac, ndot, s3) :=
    match s2 with
    | "." :: rest =>
        let '(m2, nfrac, s3) := scan_digits rest m1 0 in (m2, nfrac, 1, s3)
    | _ => (m1, 0, 0, s2)
    end in
  if (nint + nfrac =? 0)%nat then (float_zero, 0)
  else
    let '(e, nexp) := scan_exponent s3 in
    (of_decimal neg m (e - Z.of_nat nfrac)%Z,
     nws + nsign + nint + ndot + nfrac + nexp).

End Strtof.

#[global] Instance ref_library : CLibrary := {| strtof := Strtof.strtof |}.

(** Modelled from the spec: the main sketch, whose globals and functions
    the header only declares.  Its state is the gain in dB, the delay in
    ms and the diagnostics flag; the setters store their argument, the
    toggle flips the flag, and printing the gain settings changes
    nothing. *)
Module RefSketch.

Record Device := mkDevice {
  gain : float;
  delay : float;
  print_cpu_mem : bool
}.

#[global] Instance ref_sketch : Sketch Device := {|
  vol_knob_gain_dB := gain;
  delay_ms := delay;
  setVolKnobGain_dB := fun x d => mkDevice x (delay d) (print_cpu_mem d);
  printGainSettings := fun d => d;
  togglePrintMemoryAndCPU :=
    fun d => mkDevice (gain d) (delay d) (negb (print_cpu_mem d));
  setDelay_ms := fun x d => mkDevice (gain d) x (print_cpu_mem d)
|}.

Definition dev0 : Device := mkDevice float_zero float_25 false.
Definition world0 : World Device := mkWorld dev0 [].

(** A freshly constructed manager over zeroed memory. *)
Definition fresh : SerialManager := SerialManager_new (replicate 64 NUL).

(** Feeds the characters of a string to a fresh manager. *)
Definition run (input : string) : SerialManager * World Device :=
  feed (chars input) (fresh, world0).

End RefSketch.

(** ** Vocabulary of the properties *)

(** The buffer invariant: the array has its 64 bytes, the length is at most
    63, and the byte at the length is the terminator. *)
Definition inv (this : SerialManager) : Prop :=
  length (cmd_buffer_ this) = CMD_BUFFER_SIZE ∧
  cmd_len_ this ≤ CMD_BUFFER_SIZE - 1 ∧
  cmd_buffer_ this !! cmd_len_ this = Some NUL.

(** An empty buffer: the state after construction, after a newline and
    after an overflow. *)
Definition empty_buffer (this : SerialManager) : Prop :=
  inv this ∧ cmd_len_ this = 0.

(** The line accumulated so far. *)
Definition accumulated (this : SerialManager) : list ascii :=
  take (cmd_len_ this) (cmd_buffer_ this).

(** A character that [respondToByte] stores: neither CR nor newline. *)
Definition line_char (c : ascii) : Prop := c ≠ CR ∧ c ≠ LF.

(** White space that [skip_space] steps over. *)
Definition blank (c : ascii) : Prop := nonzero c && isspace c = true.

(** The [case] labels of the [switch]. *)
Definition recognized (cmd : ascii) : bool :=
  match cmd with
  | "h" | "?" | "g" | "G" | "C" | "c" | "k" | "K" | "d" | "D" => true
  | _ => false
  end.

(** The uppercase form of a lowercase letter. *)
Definition upper (c : ascii) : ascii :=
  let n := nat_of_ascii c in
  if ((97 <=? n) && (n <=? 122))%nat then ascii_of_nat (n - 32) else c.

Definition overflow_notice : event :=
  Serial_println (P_str "Command too long. Buffer cleared.").

Definition unknown_command (cmd : ascii) : list event :=
  [Serial_print (P_str "Unknown command: "); Serial_println (P_char cmd);
   Serial_println (P_str "Type 'h' for help.")].

(** What the line [g] adds to the trace when the delay is [x]. *)
Definition status_report (x : float) : list event :=
  [Call_printGainSettings; Serial_print (P_str "Delay = ");
   Serial_print (P_float x 2); Serial_println (P_str " ms")].

Definition newline : string := String LF EmptyString.

Definition not_CR (c : ascii) : bool := negb (c =? CR).

(** A statement that only adds events to the trace, none of them the
    overflow notice. *)
Definition quiet {D : Type} (stmt : World D -> World D) : Prop :=
  ∀ w, ∃ evs, trace (stmt w) = trace w ++ evs ∧ overflow_notice ∉ evs.

(** What [printHelp] writes, line by line. *)
Definition help_text : list event :=
  [Serial_println0;
   Serial_println (P_str "SerialManager Help: Available Commands:");
   Serial_println (P_str "   h or ?: Print this help");
   Serial_println (P_str "   g      : Print the current gain and delay settings");
   Serial_println (P_str "   C      : Toggle printing of CPU and Memory usage");
   Serial_println (P_str "   k <dB> : Set digital gain in dB (example: k 10)");
   Serial_println (P_str "   d <ms> : Set delay time in ms (example: d 25)");
   Serial_println0].

(** The usage messages of [k] and [d] when the current value is [x]. *)
Definition usage_k (x : float) : list event :=
  [Serial_print (P_str "Usage: k <dB>   (current = ");
   Serial_print (P_float x 1); Serial_println (P_str " dB)")].

Definition usage_d (x : float) : list event :=
  [Serial_print (P_str "Usage: d <ms>   (current = ");
   Serial_print (P_float x 2); Serial_println (P_str " ms)")].

Definition toggle_report : list event :=
  [Serial_println (P_str "Command Received: toggle printing of memory and CPU usage.");
   Call_togglePrintMemoryAndCPU].

(** The effect on the sketch's state of the call an event records (none
    for output events), and of the calls of a list of events, in order. *)
Definition apply_call {D : Type} {SK : Sketch D} (e : event) (d : D) : D :=
  match e with
  | Call_setVolKnobGain_dB x => setVolKnobGain_dB x d
  | Call_printGainSettings => printGainSettings d
  | Call_togglePrintMemoryAndCPU => togglePrintMemoryAndCPU d
  | Call_setDelay_ms x => setDelay_ms x d
  | _ => d
  end.

Definition replay {D : Type} {SK : Sketch D} (evs : list event) (d : D) : D :=
  fold_left (fun d e => apply_call e d) evs d.

(** The input that carries the given lines, each closed by a newline. *)
Definition lines_input (lines : list (list ascii)) : list ascii :=
  concat (map (fun line => line ++ [LF]) lines).

(** A line that fits the buffer and holds neither CR nor newline. *)
Definition fits (line : list ascii) : Prop :=
  Forall line_char line ∧ length line ≤ 63.

(** ** Properties *)

Section Properties.
Context {D : Type} {SK : Sketch D} {LIB : CLibrary}.

Implicit Types (this : SerialManager) (w : World D) (c : ascii).
Implicit Types (line input mem : list ascii).

(** *** The four branches of [respondToByte] *)

Lemma respondToByte_CR (s : SerialManager * World D) : respondToByte CR s = s.
Proof. by destruct s. Qed.

Lemma respondToByte_LF this w :
  respondToByte LF (this, w) =
    (mkSerialManager (<[0 := NUL]> (<[cmd_len_ this := NUL]> (cmd_buffer_ this))) 0,
     processLine_ (<[cmd_len_ this := NUL]> (cmd_buffer_ this)) w).
Proof. reflexivity. Qed.

Lemma respondToByte_store this w c :
  line_char c → cmd_len_ this < 63 →
  respondToByte c (this, w) =
    (mkSerialManager
       (<[S (cmd_len_ this) := NUL]> (<[cmd_len_ this := c]> (cmd_buffer_ this)))
       (S (cmd_len_ this)), w).
Proof.
  intros [Hcr Hlf] Hlt. unfold respondToByte.
  apply Ascii.eqb_neq in Hcr, Hlf. rewrite Hcr, Hlf.
  replace (cmd_len_ this <? CMD_BUFFER_SIZE - 1)%nat with true
    by (symmetry; apply Nat.ltb_lt; unfold CMD_BUFFER_SIZE; lia).
  unfold uint8_incr. rewrite Nat.mod_small by lia.
  by replace (cmd_len_ this + 1) with (S (cmd_len_ this)) by lia.
Qed.

Lemma respondToByte_overflow this w c :
  line_char c → 63 ≤ cmd_len_ this →
  respondToByte c (this, w) =
    (mkSerialManager (<[0 := NUL]> (cmd_buffer_ this)) 0,
     mkWorld (sketch w) (trace w ++ [overflow_notice])).
Proof.
  intros [Hcr Hlf] Hge. unfold respondToByte.
  apply Ascii.eqb_neq in Hcr, Hlf. rewrite Hcr, Hlf.
  replace (cmd_len_ this <? CMD_BUFFER_SIZE - 1)%nat with false
    by (symmetry; apply Nat.ltb_ge; unfold CMD_BUFFER_SIZE; lia).
  reflexivity.
Qed.

Lemma line_char_dec c : c = CR ∨ c = LF ∨ line_char c.
Proof.
  unfold line_char.
  destruct (Ascii.eqb_spec c CR); [by left |].
  destruct (Ascii.eqb_spec c LF); [by right; left |]. by right; right.
Qed.

Lemma feed_app input1 input2 (s : SerialManager * World D) :
  feed (input1 ++ input2) s = feed input2 (feed input1 s).
Proof. apply fold_left_app. Qed.

Lemma feed_cons c input (s : SerialManager * World D) :
  feed (c :: input) s = feed input (respondToByte c s).
Proof. reflexivity. Qed.

(** *** The buffer invariant *)

Lemma inv_new mem : length mem = 64 → inv (SerialManager_new mem).
Proof.
  intros Hlen. unfold inv, SerialManager_new, CMD_BUFFER_SIZE; simpl.
  rewrite length_insert. split_and!; [done | lia |].
  apply list_lookup_insert_eq. lia.
Qed.

Lemma inv_reset (buf : list ascii) :
  length buf = 64 → inv (mkSerialManager (<[0 := NUL]> buf) 0).
Proof. apply inv_new. Qed.

Lemma inv_respondToByte c this w :
  inv this → inv (respondToByte c (this, w)).1.
Proof.
  intros (Hlen & Hle & Hnul). unfold CMD_BUFFER_SIZE in *.
  destruct (line_char_dec c) as [-> | [-> | Hc]].
  - rewrite respondToByte_CR. by split_and!.
  - rewrite respondToByte_LF. simpl. apply inv_reset.
    by rewrite length_insert.
  - destruct (decide (cmd_len_ this < 63)) as [Hlt | Hge].
    + rewrite respondToByte_store by done. unfold inv, CMD_BUFFER_SIZE; simpl.
      rewrite !length_insert. split_and!; [done | lia |].
      apply list_lookup_insert_eq. rewrite length_insert. lia.
    + rewrite respondToByte_overflow by (done || lia). simpl.
      by apply inv_reset.
Qed.

Lemma inv_feed input this w : inv this → inv (feed input (this, w)).1.
Proof.
  revert this w. induction input as [| c input IH]; intros this w Hinv; [done |].
  rewrite feed_cons.
  pose proof (inv_respondToByte c this w Hinv) as Hstep.
  destruct (respondToByte c (this, w)) as [this' w']. by apply IH.
Qed.

(** C3. Whatever the array held before construction and whatever bytes
    are received, after construction and after every call of
    [respondToByte] the array still has its 64 bytes, the stored length
    is at most 63, and the byte at the stored length is NUL. *)
Theorem buffer_invariant mem input w :
  length mem = 64 →
  let this := (feed input (SerialManager_new mem, w)).1 in
  length (cmd_buffer_ this) = 64 ∧
  cmd_len_ this ≤ 63 ∧
  cmd_buffer_ this !! cmd_len_ this = Some NUL.
Proof. intros Hlen. apply inv_feed. by apply inv_new. Qed.

(** *** Carriage returns *)

Lemma feed_filter_CR input (s : SerialManager * World D) :
  feed input s = feed (List.filter not_CR input) s.
Proof.
  revert s. induction input as [| c input IH]; intros s; [done |].
  simpl List.filter. unfold not_CR at 1.
  destruct (Ascii.eqb_spec c CR) as [-> | Hne]; simpl negb; cbv iota.
  - rewrite feed_cons, respondToByte_CR. apply IH.
  - rewrite !feed_cons. apply IH.
Qed.

Lemma accumulated_respondToByte c this w :
  inv this → CR ∉ accumulated this →
  CR ∉ accumulated (respondToByte c (this, w)).1.
Proof.
  intros (Hlen & Hle & Hnul) Hacc. unfold accumulated, CMD_BUFFER_SIZE in *.
  destruct (line_char_dec c) as [-> | [-> | Hc]].
  - by rewrite respondToByte_CR.
  - rewrite respondToByte_LF. simpl. apply not_elem_of_nil.
  - destruct (decide (cmd_len_ this < 63)) as [Hlt | Hge].
    + rewrite respondToByte_store by done. simpl.
      rewrite take_insert_ge by lia.
      rewrite (take_S_r _ _ c) by (apply list_lookup_insert_eq; lia).
      rewrite take_insert_ge by lia.
      rewrite elem_of_app, list_elem_of_singleton.
      intros [Hin | Heq]; [done |]. destruct Hc as [Hc _]. by apply Hc.
    + rewrite respondToByte_overflow by (done || lia). simpl.
      apply not_elem_of_nil.
Qed.

Lemma accumulated_feed input this w :
  inv this → CR ∉ accumulated this → CR ∉ accumulated (feed input (this, w)).1.
Proof.
  revert this w. induction input as [| c input IH]; intros this w Hinv Hacc; [done |].
  rewrite feed_cons.
  pose proof (inv_respondToByte c this w Hinv) as Hinv'.
  pose proof (accumulated_respondToByte c this w Hinv Hacc) as Hacc'.
  destruct (respondToByte c (this, w)) as [this' w']. by apply IH.
Qed.

(** C7. A carriage return changes neither the manager nor the world; so
    every input is processed exactly as the same input without its
    carriage returns (they take no room in the buffer), and the line
    accumulated by a manager never holds one. *)
Theorem carriage_return_ignored mem input this w :
  length mem = 64 →
  respondToByte CR (this, w) = (this, w) ∧
  feed input (this, w) = feed (List.filter not_CR input) (this, w) ∧
  CR ∉ accumulated (feed input (SerialManager_new mem, w)).1.
Proof.
  intros Hlen. split_and!.
  - apply respondToByte_CR.
  - apply feed_filter_CR.
  - apply accumulated_feed; [by apply inv_new |]. apply not_elem_of_nil.
Qed.

(** *** Pointers and the strings they designate *)

Lemma c_str_app_NUL line junk : c_str (line ++ NUL :: junk) = c_str line.
Proof.
  induction line as [| c line IH]; [done |].
  simpl. destruct (nonzero c); [by rewrite IH | done].
Qed.

Lemma c_str_idemp line : c_str (c_str line) = c_str line.
Proof.
  induction line as [| c line IH]; [done |].
  simpl. destruct (nonzero c) eqn:Hc; [| done].
  simpl. by rewrite Hc, IH.
Qed.

Lemma deref_c_str line : deref (c_str line) = deref line.
Proof.
  destruct line as [| c line]; [done |].
  simpl. destruct (nonzero c) eqn:Hc; [done |].
  unfold nonzero in Hc. apply negb_false_iff, Ascii.eqb_eq in Hc. by subst.
Qed.

Lemma tl_c_str line : deref line ≠ NUL → c_str (tl line) = tl (c_str line).
Proof.
  destruct line as [| c line]; [done |]. simpl. intros Hc.
  apply Ascii.eqb_neq in Hc. unfold nonzero. by rewrite Hc.
Qed.

Lemma skip_space_c_str line : skip_space (c_str line) = c_str (skip_space line).
Proof.
  induction line as [| c line IH]; [done |].
  simpl. destruct (nonzero c) eqn:Hc; simpl; rewrite ?Hc; simpl.
  - destruct (isspace c); [done |]. simpl. by rewrite Hc.
  - done.
Qed.

Lemma parse_arg_c_str line : parse_arg (c_str line) = parse_arg line.
Proof. unfold parse_arg. by rewrite deref_c_str, c_str_idemp. Qed.

(** The line parser reads its argument as a C string: only the bytes
    before the first NUL matter. *)
Lemma processLine_c_str line : processLine_ (c_str line) = processLine_ line.
Proof.
  unfold processLine_.
  rewrite skip_space_c_str, deref_c_str.
  destruct (Ascii.eqb_spec (deref (skip_space line)) NUL) as [| Hne]; [done |].
  by rewrite <- tl_c_str, skip_space_c_str, parse_arg_c_str.
Qed.

Lemma processLine_app_NUL line junk :
  processLine_ (line ++ NUL :: junk) = processLine_ line.
Proof.
  by rewrite <- processLine_c_str, c_str_app_NUL, processLine_c_str.
Qed.

(** *** Accumulating a line *)

Lemma feed_store input : ∀ this w,
  inv this → Forall line_char input → cmd_len_ this + length input ≤ 63 →
  feed input (this, w) =
    (mkSerialManager
       (take (cmd_len_ this) (cmd_buffer_ this) ++ input ++
        NUL :: drop (S (cmd_len_ this + length input)) (cmd_buffer_ this))
       (cmd_len_ this + length input), w).
Proof.
  induction input as [| c input IH]; intros this w Hinv Hall Hle.
  - destruct this as [buf n], Hinv as (_ & _ & Hnul); simpl in *.
    by rewrite Nat.add_0_r, take_drop_middle.
  - apply Forall_cons in Hall as [Hc Hall]. simpl in Hle.
    pose proof (inv_respondToByte c this w Hinv) as Hinv'.
    rewrite feed_cons. rewrite respondToByte_store in * by (done || lia).
    rewrite IH by (done || simpl; lia).
    destruct this as [buf n], Hinv as (Hlen & _ & _).
    unfold CMD_BUFFER_SIZE in *; simpl in *.
    rewrite take_insert_ge by lia.
    rewrite (take_S_r _ _ c) by (apply list_lookup_insert_eq; lia).
    rewrite take_insert_ge by lia.
    rewrite !drop_insert_lt by lia.
    rewrite <- app_assoc. simpl.
    by replace (n + S (length input)) with (S (n + length input)) by lia.
Qed.

(** A line that fits, fed to an empty buffer and closed by a newline, is
    handed to the line parser, and the buffer is empty again. *)
Lemma feed_line line this w :
  empty_buffer this → Forall line_char line → length line ≤ 63 →
  ∃ this', feed (line ++ [LF]) (this, w) = (this', processLine_ line w) ∧
           empty_buffer this'.
Proof.
  intros [Hinv H0] Hall Hle.
  pose proof (inv_feed line this w Hinv) as Hinv'.
  rewrite feed_app, feed_cons, feed_store in * by (done || lia).
  rewrite respondToByte_LF. destruct this as [buf n].
  simpl in *. subst n. simpl in *. destruct Hinv' as (Hlen & _ & Hnul).
  rewrite (list_insert_id _ (length line)) by done.
  eexists. split.
  - by rewrite processLine_app_NUL.
  - split; [| done]. by apply inv_reset.
Qed.

(** *** What the line parser adds to the trace *)

Lemma quiet_skip : quiet (@skip (World D)).
Proof. intros w. exists []. split; [by rewrite app_nil_r | apply not_elem_of_nil]. Qed.

Lemma quiet_emit e : e ≠ overflow_notice → quiet (emit (D := D) e).
Proof.
  intros He w. exists [e]. split; [done |].
  rewrite list_elem_of_singleton. congruence.
Qed.

Lemma quiet_call e (f : D → D) : e ≠ overflow_notice → quiet (call e f).
Proof.
  intros He w. exists [e]. split; [done |].
  rewrite list_elem_of_singleton. congruence.
Qed.

Lemma quiet_seq (s1 s2 : World D → World D) :
  quiet s1 → quiet s2 → quiet (s1 >>> s2).
Proof.
  intros H1 H2 w. unfold seq_stmt.
  destruct (H1 w) as (evs1 & E1 & N1), (H2 (s1 w)) as (evs2 & E2 & N2).
  exists (evs1 ++ evs2). rewrite E2, E1, app_assoc. split; [done |].
  rewrite elem_of_app. tauto.
Qed.

Lemma quiet_print_delay_ms : quiet (print_delay_ms (D := D)).
Proof. intros w. by apply quiet_emit. Qed.

Lemma quiet_print_vol_knob_gain_dB : quiet (print_vol_knob_gain_dB (D := D)).
Proof. intros w. by apply quiet_emit. Qed.

Ltac quiet_steps :=
  repeat first
    [ apply quiet_seq
    | apply quiet_print_delay_ms
    | apply quiet_print_vol_knob_gain_dB
    | apply quiet_emit; discriminate
    | apply quiet_call; discriminate ].

Lemma quiet_dispatch cmd has_arg arg : quiet (dispatch cmd has_arg arg).
Proof.
  destruct cmd as [[] [] [] [] [] [] [] []], has_arg;
    unfold dispatch, printHelp, print, println, println0; quiet_steps.
Qed.

Lemma quiet_processLine_ line : quiet (processLine_ line).
Proof.
  unfold processLine_.
  destruct (deref (skip_space line) =? NUL); [apply quiet_skip |].
  destruct (parse_arg _) as [has_arg arg]. apply quiet_dispatch.
Qed.

(** *** Overflow *)

Lemma feed_full cs this w :
  empty_buffer this → length cs = 63 → Forall line_char cs →
  feed cs (this, w) = (mkSerialManager (cs ++ [NUL]) 63, w).
Proof.
  intros [Hinv H0] Hlen Hall.
  rewrite feed_store by (done || lia).
  destruct this as [buf n], Hinv as (Hbuf & _ & _).
  unfold CMD_BUFFER_SIZE in *; simpl in *. subst n. simpl.
  rewrite Hlen, drop_ge by lia. done.
Qed.

(** C2. From an empty buffer, 63 characters other than CR and newline
    are all stored and print nothing.  A 64th such character is not
    stored: the buffer is reset to empty and the overflow notice is
    printed.  A newline instead hands the 63 characters to the line
    parser, which never prints the overflow notice, and resets the
    buffer. *)
Theorem overflow_boundary this w cs c :
  empty_buffer this → length cs = 63 → Forall line_char cs → line_char c →
  feed cs (this, w) = (mkSerialManager (cs ++ [NUL]) 63, w) ∧
  feed (cs ++ [c]) (this, w) =
    (mkSerialManager (<[0 := NUL]> (cs ++ [NUL])) 0,
     mkWorld (sketch w) (trace w ++ [overflow_notice])) ∧
  feed (cs ++ [LF]) (this, w) =
    (mkSerialManager (<[0 := NUL]> (cs ++ [NUL])) 0, processLine_ cs w) ∧
  ∃ evs, trace (processLine_ cs w) = trace w ++ evs ∧ overflow_notice ∉ evs.
Proof.
  intros Hempty Hlen Hall Hc.
  pose proof (feed_full cs this w Hempty Hlen Hall) as Hfull.
  split_and!.
  - done.
  - rewrite feed_app, Hfull, feed_cons.
    by rewrite respondToByte_overflow.
  - rewrite feed_app, Hfull, feed_cons, respondToByte_LF. simpl.
    rewrite (list_insert_id _ 63).
    + by rewrite processLine_app_NUL.
    + rewrite lookup_app_r by lia. by rewrite Hlen.
  - apply quiet_processLine_.
Qed.

(** *** Blank lines *)

Lemma isspace_nonzero c : isspace c = true → nonzero c = true.
Proof.
  intros Hc. unfold nonzero.
  destruct (Ascii.eqb_spec c NUL) as [-> | _]; [discriminate | done].
Qed.

Lemma skip_space_blank ws rest :
  Forall blank ws → skip_space (ws ++ rest) = skip_space rest.
Proof.
  induction 1 as [| c ws Hc _ IH]; [done |].
  simpl. unfold blank in Hc. by rewrite Hc.
Qed.

Lemma processLine_blank ws junk w :
  Forall (λ c, isspace c = true) ws → processLine_ (ws ++ NUL :: junk) w = w.
Proof.
  intros Hws. unfold processLine_.
  rewrite skip_space_blank; [done |].
  eapply Forall_impl; [exact Hws |].
  intros c Hc. unfold blank. by rewrite Hc, isspace_nonzero.
Qed.

(** C8. When the line accumulated so far is empty or holds only white
    space, the line parser leaves the world as it is (no output, no call,
    same sketch state), and the newline that ends the line resets the
    buffer to empty. *)
Theorem blank_line_ignored this w :
  inv this → Forall (λ c, isspace c = true) (accumulated this) →
  processLine_ (cmd_buffer_ this) w = w ∧
  ∃ this', respondToByte LF (this, w) = (this', w) ∧ empty_buffer this'.
Proof.
  intros (Hlen & Hle & Hnul) Hws.
  assert (processLine_ (cmd_buffer_ this) w = w) as Hline.
  { rewrite <- (take_drop_middle _ _ _ Hnul). by apply processLine_blank. }
  split; [done |].
  rewrite respondToByte_LF, (list_insert_id _ _ _ Hnul).
  eexists. split; [by rewrite Hline |].
  split; [| done]. by apply inv_reset.
Qed.

(** *** Unknown commands *)

Lemma trace_emit3 e1 e2 e3 w :
  (emit e1 >>> emit e2 >>> emit e3) w = mkWorld (sketch w) (trace w ++ [e1; e2; e3]).
Proof. unfold seq_stmt, emit. simpl. by rewrite <- !app_assoc. Qed.

Lemma dispatch_default cmd has_arg arg :
  recognized cmd = false →
  dispatch cmd has_arg arg =
    (print (P_str "Unknown command: ") >>> println (P_char cmd) >>>
     println (P_str "Type 'h' for help.")).
Proof.
  destruct cmd as [[] [] [] [] [] [] [] []];
    first [discriminate | reflexivity].
Qed.

(** C6. A line whose command letter is none of the [case] labels adds
    to the trace the unknown-command message with that very character
    and the hint, and nothing else: no call into the sketch is made and
    the sketch's state is the same. *)
Theorem unknown_command_reported line w :
  deref (skip_space line) ≠ NUL →
  recognized (deref (skip_space line)) = false →
  processLine_ line w =
    mkWorld (sketch w) (trace w ++
      [Serial_print (P_str "Unknown command: ");
       Serial_println (P_char (deref (skip_space line)));
       Serial_println (P_str "Type 'h' for help.")]) ∧
  sketch (processLine_ line w) = sketch w ∧
  Forall (λ e, is_call e = false) (unknown_command (deref (skip_space line))).
Proof.
  intros Hcmd Hrec.
  assert (processLine_ line w =
            mkWorld (sketch w) (trace w ++ unknown_command (deref (skip_space line))))
    as Heq.
  { unfold processLine_.
    apply Ascii.eqb_neq in Hcmd. rewrite Hcmd.
    destruct (parse_arg _) as [has_arg arg].
    rewrite dispatch_default by done. apply trace_emit3. }
  split_and!; [done | by rewrite Heq | by repeat constructor].
Qed.

(** *** The gain command and its argument *)

Lemma trace_call e (f : D → D) w :
  call e f w = mkWorld (f (sketch w)) (trace w ++ [e]).
Proof. reflexivity. Qed.

Lemma trace_usage_k w :
  (print (P_str "Usage: k <dB>   (current = ") >>> print_vol_knob_gain_dB >>>
   println (P_str " dB)")) w =
  mkWorld (sketch w) (trace w ++
    [Serial_print (P_str "Usage: k <dB>   (current = ");
     Serial_print (P_float (vol_knob_gain_dB (sketch w)) 1);
     Serial_println (P_str " dB)")]).
Proof.
  unfold seq_stmt, print_vol_knob_gain_dB, print, println, emit. simpl.
  by rewrite <- !app_assoc.
Qed.

(** C4. If [strtof] reads "10" as 10.0 (two characters), the line
    [k 10] makes one call, the gain setter with 10.0, and prints nothing.
    The line [k] makes no call and leaves the sketch's state as it is: it
    prints the usage message with the current gain, to one decimal. *)
Theorem gain_command w :
  strtof (chars "10") = (float_10, 2) →
  processLine_ (chars "k 10") w =
    mkWorld (setVolKnobGain_dB float_10 (sketch w))
            (trace w ++ [Call_setVolKnobGain_dB float_10]) ∧
  processLine_ (chars "k") w =
    mkWorld (sketch w) (trace w ++
      [Serial_print (P_str "Usage: k <dB>   (current = ");
       Serial_print (P_float (vol_knob_gain_dB (sketch w)) 1);
       Serial_println (P_str " dB)")]).
Proof.
  intros H10. split.
  - unfold processLine_, parse_arg. simpl. unfold chars in H10.
    simpl in H10. by rewrite H10.
  - apply trace_usage_k.
Qed.

Lemma dispatch_no_arg cmd arg1 arg2 :
  dispatch (D := D) cmd false arg1 = dispatch cmd false arg2.
Proof. by destruct cmd as [[] [] [] [] [] [] [] []]. Qed.

(** C5. Provided [strtof] consumes nothing of an empty string: on every
    line, with [p] the first position that is not white space after the
    command letter, the argument is present exactly when [strtof] at [p]
    consumes at least one character, and the line is dispatched on the
    command letter, that flag and the value [strtof] returns alone, so
    whatever follows the number plays no role.  If [strtof] reads "10abc" as
    10.0 (two characters), the line [k 10abc] makes one call, the gain
    setter with 10.0, and prints nothing. *)
Theorem argument_presence line w :
  (strtof []).2 = 0 →
  strtof (chars "10abc") = (float_10, 2) →
  let p := skip_space (tl (skip_space line)) in
  ((parse_arg p).1 = true ↔ 0 < (strtof (c_str p)).2) ∧
  (deref (skip_space line) ≠ NUL →
   processLine_ line w =
     dispatch (deref (skip_space line))
              (0 <? (strtof (c_str p)).2)%nat (strtof (c_str p)).1 w) ∧
  processLine_ (chars "k 10abc") w =
    mkWorld (setVolKnobGain_dB float_10 (sketch w))
            (trace w ++ [Call_setVolKnobGain_dB float_10]).
Proof.
  intros Hnil H10 p.
  assert (parse_arg p =
            ((0 <? (strtof (c_str p)).2)%nat,
             if (0 <? (strtof (c_str p)).2)%nat then (strtof (c_str p)).1
             else (parse_arg p).2)) as Hparse.
  { unfold parse_arg. destruct p as [| c p']; simpl.
    - by rewrite Hnil.
    - destruct (nonzero c) eqn:Hc; simpl; [| by rewrite Hnil].
      destruct (strtof (c :: c_str p')) as [v [| n]]; done. }
  split_and!.
  - rewrite Hparse. simpl. rewrite Nat.ltb_lt. done.
  - intros Hcmd. unfold processLine_.
    apply Ascii.eqb_neq in Hcmd. rewrite Hcmd. fold p.
    rewrite Hparse.
    destruct (0 <? (strtof (c_str p)).2)%nat; [done |].
    by rewrite (dispatch_no_arg _ _ (strtof (c_str p)).1).
  - unfold processLine_, parse_arg. simpl. unfold chars in H10.
    simpl in H10. by rewrite H10.
Qed.

(** *** The status command *)

Lemma processLine_g w :
  processLine_ (chars "g") w =
    mkWorld (printGainSettings (sketch w))
            (trace w ++ status_report (delay_ms (printGainSettings (sketch w)))).
Proof.
  unfold processLine_, parse_arg, status_report. simpl.
  unfold seq_stmt, print_delay_ms, print, println, call, emit. simpl.
  by rewrite <- !app_assoc.
Qed.

(** C9. Provided printing the gain settings leaves the sketch's state
    as it is: fed [n] times to an empty buffer, the line [g] adds to the
    trace [n] times the same events (the call that prints the gain
    settings, then the delay line with the same value), and leaves the
    sketch's state unchanged. *)
Theorem status_idempotent n this w :
  empty_buffer this → printGainSettings (sketch w) = sketch w →
  ∃ this',
    feed (concat (replicate n (chars "g" ++ [LF]))) (this, w) =
      (this', mkWorld (sketch w)
         (trace w ++ concat (replicate n (status_report (delay_ms (sketch w)))))) ∧
    empty_buffer this'.
Proof.
  revert this w. induction n as [| n IH]; intros this w Hempty Hsame.
  - exists this. simpl. destruct w. by rewrite app_nil_r.
  - cbn [replicate concat]. rewrite feed_app.
    destruct (feed_line (chars "g") this w) as (this1 & -> & Hempty1);
      [done | by repeat constructor | simpl; lia |].
    rewrite processLine_g, Hsame.
    destruct (IH this1 (mkWorld (sketch w)
                (trace w ++ status_report (delay_ms (sketch w)))))
      as (this' & -> & Hempty'); [done | done |].
    exists this'. simpl. by rewrite <- app_assoc.
Qed.

(** *** Upper and lower case *)

Lemma cased_letter cmd :
  cmd ∈ ["g"; "c"; "k"; "d"] →
  line_char (upper cmd) ∧
  (∀ rest, skip_space (cmd :: rest) = cmd :: rest) ∧
  (∀ rest, skip_space (upper cmd :: rest) = upper cmd :: rest) ∧
  cmd ≠ NUL ∧ upper cmd ≠ NUL ∧
  (∀ has_arg arg, dispatch (D := D) (upper cmd) has_arg arg = dispatch cmd has_arg arg).
Proof.
  rewrite !elem_of_cons, elem_of_nil.
  intros [-> | [-> | [-> | [-> | []]]]]; by repeat split.
Qed.

(** C1 (as amended). For each of the command letters g, c, k and d, a
    line with the uppercase letter is dispatched exactly as the line with
    the lowercase letter, whatever white space precedes the letter and
    whatever follows it: the line parser yields the same world (same trace
    of calls and output, same sketch state), and so does feeding the line
    and a newline to an empty buffer when the line fits. *)
Theorem uppercase_equivalent cmd ws rest this w :
  cmd ∈ ["g"; "c"; "k"; "d"] → Forall blank ws →
  processLine_ (ws ++ upper cmd :: rest) w = processLine_ (ws ++ cmd :: rest) w ∧
  (empty_buffer this → Forall line_char (ws ++ cmd :: rest) →
   length (ws ++ cmd :: rest) ≤ 63 →
   (feed ((ws ++ upper cmd :: rest) ++ [LF]) (this, w)).2 =
   (feed ((ws ++ cmd :: rest) ++ [LF]) (this, w)).2).
Proof.
  intros Hcmd Hws.
  destruct (cased_letter cmd Hcmd) as (Hlc & Hlo & Hup & Hnz & Hnzu & Hdisp).
  assert (processLine_ (ws ++ upper cmd :: rest) w =
          processLine_ (ws ++ cmd :: rest) w) as Hline.
  { unfold processLine_. rewrite !skip_space_blank, Hlo, Hup by done. simpl.
    apply Ascii.eqb_neq in Hnz, Hnzu. rewrite Hnz, Hnzu.
    destruct (parse_arg _) as [has_arg arg]. by rewrite Hdisp. }
  split; [done |]. intros Hempty Hall Hlen.
  destruct (feed_line (ws ++ cmd :: rest) this w) as (? & -> & _); [done.. |].
  destruct (feed_line (ws ++ upper cmd :: rest) this w) as (? & -> & _); [done | | | done].
  - apply Forall_app in Hall as [Hall1 Hall2].
    apply Forall_cons in Hall2 as [_ Hall2].
    apply Forall_app. split; [done |]. by apply Forall_cons.
  - by rewrite length_app in *.
Qed.

End Properties.

(** ** The reference [strtof] and the reference sketch at work *)

Example strtof_10 : strtof (chars "10") = (float_10, 2).
Proof. reflexivity. Qed.

Example strtof_25 : strtof (chars "25") = (float_25, 2).
Proof. reflexivity. Qed.

Example strtof_10abc : strtof (chars "10abc") = (float_10, 2).
Proof. reflexivity. Qed.

Example strtof_fraction_exponent :
  strtof (chars "-2.5e-1x") = (S754_finite true 8388608 (-25), 7).
Proof. reflexivity. Qed.

Example strtof_no_digits :
  (strtof (chars "abc")).2 = 0 ∧ (strtof (chars "-")).2 = 0 ∧ (strtof (chars ".")).2 = 0.
Proof. by repeat split. Qed.

Example run_k_10 :
  (RefSketch.run ("k 10" ++ newline)).2 =
    mkWorld (RefSketch.mkDevice float_10 float_25 false)
            [Call_setVolKnobGain_dB float_10].
Proof. reflexivity. Qed.

Example run_d_25_both_cases :
  (RefSketch.run ("D 25" ++ newline)).2 = (RefSketch.run ("d 25" ++ newline)).2 ∧
  trace (RefSketch.run ("d 25" ++ newline)).2 = [Call_setDelay_ms float_25].
Proof. by split. Qed.

Example run_h :
  (RefSketch.run ("h" ++ newline)).2 = printHelp RefSketch.world0 ∧
  (RefSketch.run ("?" ++ newline)).2 = printHelp RefSketch.world0.
Proof. by split. Qed.

Lemma empty_buffer_fresh : empty_buffer RefSketch.fresh.
Proof. split; [by apply inv_new | done]. Qed.

Lemma line_char_letters n c :
  c ≠ CR → c ≠ LF → Forall line_char (replicate n c).
Proof. intros Hcr Hlf. by apply Forall_replicate. Qed.

(** *** Instances of the theorems *)

Lemma buffer_invariant_witness :
  let this := (feed (chars "k 10abc" ++ [CR; LF; NUL] ++ replicate 70 "z")
                 (SerialManager_new (replicate 64 "x"), RefSketch.world0)).1 in
  length (cmd_buffer_ this) = 64 ∧
  cmd_len_ this ≤ 63 ∧
  cmd_buffer_ this !! cmd_len_ this = Some NUL.
Proof.
  exact (buffer_invariant (replicate 64 "x")
           (chars "k 10abc" ++ [CR; LF; NUL] ++ replicate 70 "z")
           RefSketch.world0 eq_refl).
Defined.

Lemma carriage_return_ignored_witness :
  feed (chars "k" ++ [CR] ++ chars " 10" ++ [CR; LF]) (RefSketch.fresh, RefSketch.world0) =
  feed (List.filter not_CR (chars "k" ++ [CR] ++ chars " 10" ++ [CR; LF]))
       (RefSketch.fresh, RefSketch.world0).
Proof.
  exact (proj1 (proj2 (carriage_return_ignored (replicate 64 "x")
                         (chars "k" ++ [CR] ++ chars " 10" ++ [CR; LF])
                         RefSketch.fresh RefSketch.world0 eq_refl))).
Defined.

Lemma overflow_boundary_witness :
  feed (replicate 63 "a" ++ ["b"]) (RefSketch.fresh, RefSketch.world0) =
    (mkSerialManager (<[0 := NUL]> (replicate 63 "a" ++ [NUL])) 0,
     mkWorld (sketch RefSketch.world0) (trace RefSketch.world0 ++ [overflow_notice])).
Proof.
  refine (proj1 (proj2 (overflow_boundary RefSketch.fresh RefSketch.world0
                          (replicate 63 "a") "b" empty_buffer_fresh eq_refl _ _))).
  - by apply line_char_letters.
  - by split.
Defined.

Lemma blank_line_ignored_witness :
  processLine_ (chars "   " ++ replicate 61 NUL) RefSketch.world0 = RefSketch.world0.
Proof.
  refine (proj1 (blank_line_ignored
                   (mkSerialManager (chars "   " ++ replicate 61 NUL) 3)
                   RefSketch.world0 _ _)).
  - split_and!; [reflexivity | simpl; unfold CMD_BUFFER_SIZE; lia | reflexivity].
  - by repeat constructor.
Defined.

Lemma unknown_command_reported_witness :
  processLine_ (chars "x") RefSketch.world0 =
    mkWorld (sketch RefSketch.world0)
      (trace RefSketch.world0 ++
       [Serial_print (P_str "Unknown command: ");
        Serial_println (P_char (deref (skip_space (chars "x"))));
        Serial_println (P_str "Type 'h' for help.")]).
Proof.
  refine (proj1 (unknown_command_reported (chars "x") RefSketch.world0 _ eq_refl)).
  discriminate.
Defined.

Lemma gain_command_witness :
  processLine_ (chars "k 10") RefSketch.world0 =
    mkWorld (setVolKnobGain_dB float_10 (sketch RefSketch.world0))
            (trace RefSketch.world0 ++ [Call_setVolKnobGain_dB float_10]).
Proof.
  exact (proj1 (gain_command RefSketch.world0 eq_refl)).
Defined.

Lemma argument_presence_witness :
  processLine_ (chars "k 10abc") RefSketch.world0 =
    mkWorld (setVolKnobGain_dB float_10 (sketch RefSketch.world0))
            (trace RefSketch.world0 ++ [Call_setVolKnobGain_dB float_10]).
Proof.
  exact (proj2 (proj2 (argument_presence (chars "k 10abc") RefSketch.world0
                         eq_refl eq_refl))).
Defined.

Lemma status_idempotent_witness :
  ∃ this',
    feed (concat (replicate 3 (chars "g" ++ [LF]))) (RefSketch.fresh, RefSketch.world0) =
      (this', mkWorld (sketch RefSketch.world0)
                (trace RefSketch.world0 ++
                 concat (replicate 3 (status_report (delay_ms (sketch RefSketch.world0)))))) ∧
    empty_buffer this'.
Proof.
  exact (status_idempotent 3 RefSketch.fresh RefSketch.world0
           empty_buffer_fresh eq_refl).
Defined.

Lemma uppercase_equivalent_witness :
  (feed (([] ++ upper "d" :: chars " 25") ++ [LF]) (RefSketch.fresh, RefSketch.world0)).2 =
  (feed (([] ++ "d" :: chars " 25") ++ [LF]) (RefSketch.fresh, RefSketch.world0)).2.
Proof.
  refine (proj2 (uppercase_equivalent "d" [] (chars " 25")
                   RefSketch.fresh RefSketch.world0 _ _) empty_buffer_fresh _ _).
  - rewrite !elem_of_cons. tauto.
  - constructor.
  - by repeat constructor.
  - simpl. lia.
Defined.

(** C1 (as stated) fails for the help command: the [switch] pairs [h]
    with [?], and an uppercase H falls to the default branch. *)
Lemma uppercase_H_not_help :
  trace (RefSketch.run ("H" ++ newline)).2 = unknown_command "H" ∧
  trace (RefSketch.run ("h" ++ newline)).2 = trace (printHelp RefSketch.world0) ∧
  (RefSketch.run ("H" ++ newline)).2 ≠ (RefSketch.run ("h" ++ newline)).2.
Proof. split_and!; [reflexivity | reflexivity | discriminate]. Qed.

(** ** Further properties of the interpreter *)

Section Commands.
Context {D : Type} {SK : Sketch D} {LIB : CLibrary}.

Implicit Types (this : SerialManager) (w : World D) (c cmd : ascii).
Implicit Types (line input rest ws : list ascii).

(** *** The command letter and its argument *)

Lemma c_str_nil_deref line : c_str line = [] ↔ deref line = NUL.
Proof.
  destruct line as [| c line]; [done |]. simpl. unfold nonzero.
  destruct (Ascii.eqb_spec c NUL); simpl; split; congruence.
Qed.

Lemma skip_space_letter c rest :
  isspace c = false → skip_space (c :: rest) = c :: rest.
Proof. intros Hc. simpl. by rewrite Hc, andb_false_r. Qed.

(** A line is dispatched on its first character that is not white space,
    with the argument read after the white space that follows it. *)
Lemma processLine_letter ws cmd rest w :
  Forall blank ws → isspace cmd = false → cmd ≠ NUL →
  processLine_ (ws ++ cmd :: rest) w =
    dispatch cmd (parse_arg (skip_space rest)).1 (parse_arg (skip_space rest)).2 w.
Proof.
  intros Hws Hsp Hnz. unfold processLine_.
  rewrite skip_space_blank, skip_space_letter by done. simpl.
  apply Ascii.eqb_neq in Hnz. rewrite Hnz.
  by destruct (parse_arg (skip_space rest)).
Qed.

Lemma parse_arg_present line v n :
  c_str line ≠ [] → strtof (c_str line) = (v, S n) → parse_arg line = (true, v).
Proof.
  intros Hne Hv. unfold parse_arg.
  destruct (Ascii.eqb_spec (deref line) NUL) as [Hd | Hd]; unfold nonzero.
  - by apply c_str_nil_deref in Hd.
  - apply Ascii.eqb_neq in Hd. by rewrite Hd, Hv.
Qed.

Lemma parse_arg_absent line :
  c_str line = [] ∨ (strtof (c_str line)).2 = 0 → (parse_arg line).1 = false.
Proof.
  intros Hno. unfold parse_arg, nonzero.
  destruct (Ascii.eqb_spec (deref line) NUL) as [Hd | Hd]; [done |]. simpl.
  destruct Hno as [Hnil | Hzero]; [by apply c_str_nil_deref in Hnil |].
  destruct (strtof (c_str line)) as [v n]. simpl in *. by subst.
Qed.

Lemma trace_emit8 e1 e2 e3 e4 e5 e6 e7 e8 w :
  (emit e1 >>> emit e2 >>> emit e3 >>> emit e4 >>> emit e5 >>> emit e6 >>>
   emit e7 >>> emit e8) w =
  mkWorld (sketch w) (trace w ++ [e1; e2; e3; e4; e5; e6; e7; e8]).
Proof. unfold seq_stmt, emit. simpl. by rewrite <- !app_assoc. Qed.

(** X1. A line whose first character after any white space is [h] or
    [?] writes the eight lines of the help text, whatever follows the
    letter, and neither calls the sketch nor changes its state. *)
Theorem help_command ws cmd rest w :
  Forall blank ws → cmd ∈ ["h"; "?"] →
  processLine_ (ws ++ cmd :: rest) w = mkWorld (sketch w) (trace w ++ help_text) ∧
  Forall (λ e, is_call e = false) help_text.
Proof.
  intros Hws Hcmd. split; [| by repeat constructor].
  rewrite !elem_of_cons, elem_of_nil in Hcmd.
  destruct Hcmd as [-> | [-> | []]];
    (rewrite processLine_letter by done); apply trace_emit8.
Qed.

(** X2. A line whose command letter is [c] or [C] first prints the
    confirmation and then calls the toggle of the sketch, once, whatever
    follows the letter. *)
Theorem toggle_command ws cmd rest w :
  Forall blank ws → cmd ∈ ["c"; "C"] →
  processLine_ (ws ++ cmd :: rest) w =
    mkWorld (togglePrintMemoryAndCPU (sketch w)) (trace w ++ toggle_report).
Proof.
  intros Hws Hcmd. rewrite !elem_of_cons, elem_of_nil in Hcmd.
  destruct Hcmd as [-> | [-> | []]];
    (rewrite processLine_letter by done);
    unfold dispatch, seq_stmt, println, call, emit; simpl;
    by rewrite <- !app_assoc.
Qed.

(** X3. A line whose command letter is [g] or [G] calls the sketch to
    print the gain settings and then prints the delay as it is after that
    call, to two decimals, whatever follows the letter. *)
Theorem status_command ws cmd rest w :
  Forall blank ws → cmd ∈ ["g"; "G"] →
  processLine_ (ws ++ cmd :: rest) w =
    mkWorld (printGainSettings (sketch w))
            (trace w ++ status_report (delay_ms (printGainSettings (sketch w)))).
Proof.
  intros Hws Hcmd. rewrite !elem_of_cons, elem_of_nil in Hcmd.
  destruct Hcmd as [-> | [-> | []]];
    (rewrite processLine_letter by done);
    unfold dispatch, seq_stmt, print_delay_ms, print, println, call, emit; simpl;
    by rewrite <- !app_assoc.
Qed.

(** X4. A line whose command letter is [k] or [K]: when a string follows
    the letter and [strtof] consumes at least one character of it, the
    gain setter is called with the value [strtof] returns, unchecked, and
    nothing is printed; when nothing follows or [strtof] consumes nothing,
    no call is made, the state is kept and the usage message shows the
    current gain to one decimal. *)
Theorem gain_command_general ws cmd rest w :
  Forall blank ws → cmd ∈ ["k"; "K"] →
  let p := c_str (skip_space rest) in
  (∀ v n, p ≠ [] → strtof p = (v, S n) →
     processLine_ (ws ++ cmd :: rest) w =
       mkWorld (setVolKnobGain_dB v (sketch w))
               (trace w ++ [Call_setVolKnobGain_dB v])) ∧
  (p = [] ∨ (strtof p).2 = 0 →
     processLine_ (ws ++ cmd :: rest) w =
       mkWorld (sketch w) (trace w ++ usage_k (vol_knob_gain_dB (sketch w)))).
Proof.
  intros Hws Hcmd p. rewrite !elem_of_cons, elem_of_nil in Hcmd. split.
  - intros v n Hne Hv.
    destruct Hcmd as [-> | [-> | []]];
      (rewrite processLine_letter by done);
      by rewrite (parse_arg_present _ v n).
  - intros Hno. apply parse_arg_absent in Hno.
    destruct Hcmd as [-> | [-> | []]];
      (rewrite processLine_letter by done); rewrite Hno;
      apply trace_usage_k.
Qed.

Lemma trace_usage_d w :
  (print (P_str "Usage: d <ms>   (current = ") >>> print_delay_ms >>>
   println (P_str " ms)")) w =
  mkWorld (sketch w) (trace w ++ usage_d (delay_ms (sketch w))).
Proof.
  unfold seq_stmt, print_delay_ms, print, println, emit. simpl.
  by rewrite <- !app_assoc.
Qed.

(** X5. A line whose command letter is [d] or [D]: when a string follows
    the letter and [strtof] consumes at least one character of it, the
    delay setter is called with the value [strtof] returns, unchecked, and
    nothing is printed; when nothing follows or [strtof] consumes nothing,
    no call is made, the state is kept and the usage message shows the
    current delay to two decimals. *)
Theorem delay_command ws cmd rest w :
  Forall blank ws → cmd ∈ ["d"; "D"] →
  let p := c_str (skip_space rest) in
  (∀ v n, p ≠ [] → strtof p = (v, S n) →
     processLine_ (ws ++ cmd :: rest) w =
       mkWorld (setDelay_ms v (sketch w)) (trace w ++ [Call_setDelay_ms v])) ∧
  (p = [] ∨ (strtof p).2 = 0 →
     processLine_ (ws ++ cmd :: rest) w =
       mkWorld (sketch w) (trace w ++ usage_d (delay_ms (sketch w)))).
Proof.
  intros Hws Hcmd p. rewrite !elem_of_cons, elem_of_nil in Hcmd. split.
  - intros v n Hne Hv.
    destruct Hcmd as [-> | [-> | []]];
      (rewrite processLine_letter by done);
      by rewrite (parse_arg_present _ v n).
  - intros Hno. apply parse_arg_absent in Hno.
    destruct Hcmd as [-> | [-> | []]];
      (rewrite processLine_letter by done); rewrite Hno;
      apply trace_usage_d.
Qed.

(** X6. White space before the command letter and between the letter
    and its argument plays no role: the line is dispatched as the letter
    directly followed by the rest. *)
Theorem whitespace_irrelevant ws1 ws2 cmd rest w :
  Forall blank ws1 → Forall blank ws2 → isspace cmd = false →
  processLine_ (ws1 ++ cmd :: ws2 ++ rest) w = processLine_ (cmd :: rest) w.
Proof.
  intros Hws1 Hws2 Hsp. unfold processLine_.
  rewrite skip_space_blank, !skip_space_letter by done. simpl.
  by rewrite skip_space_blank.
Qed.

End Commands.

Section Lines.
Context {D : Type} {SK : Sketch D} {LIB : CLibrary}.

Implicit Types (this : SerialManager) (w : World D) (c : ascii).
Implicit Types (line input pre post : list ascii).

(** *** Lines as the parser sees them *)

Lemma accumulated_store line this w :
  empty_buffer this → fits line →
  ∃ this', feed line (this, w) = (this', w) ∧ inv this' ∧
           cmd_len_ this' = length line ∧ accumulated this' = line.
Proof.
  intros [Hinv Hzero] [Hall Hle].
  pose proof (inv_feed line this w Hinv) as Hinv'.
  rewrite feed_store in * by (done || lia).
  eexists. split; [done |]. split; [done |].
  unfold accumulated. rewrite Hzero. simpl. split; [done |].
  by rewrite take_app_length.
Qed.

(** X7. A NUL byte is stored like any other character and counts in the
    length, but it ends the line for the parser: what was received after
    it, up to the newline, is not looked at. *)
Theorem nul_truncates_line pre post this w :
  empty_buffer this → fits (pre ++ NUL :: post) →
  (∃ this', feed (pre ++ NUL :: post) (this, w) = (this', w) ∧
            cmd_len_ this' = length pre + 1 + length post) ∧
  (∃ this', feed ((pre ++ NUL :: post) ++ [LF]) (this, w) =
              (this', processLine_ pre w) ∧ empty_buffer this').
Proof.
  intros Hempty Hfits. split.
  - destruct (accumulated_store _ this w Hempty Hfits) as (this' & -> & _ & Hlen & _).
    exists this'. split; [done |]. rewrite Hlen, length_app. simpl. lia.
  - destruct Hfits as [Hall Hle].
    destruct (feed_line _ this w Hempty Hall Hle) as (this' & -> & Hempty').
    exists this'. by rewrite processLine_app_NUL.
Qed.

(** X8. Lines that fit the buffer, each closed by a newline, are
    dispatched one after the other, in order, each on the world the
    previous one left; the buffer is empty again at the end. *)
Theorem lines_compose (lines : list (list ascii)) this w :
  empty_buffer this → Forall fits lines →
  ∃ this', feed (lines_input lines) (this, w) =
             (this', fold_left (λ w line, processLine_ line w) lines w) ∧
           empty_buffer this'.
Proof.
  intros Hempty Hall. revert this w Hempty.
  induction Hall as [| line lines [Hchars Hle] _ IH]; intros this w Hempty.
  - by exists this.
  - unfold lines_input. cbn [map concat]. rewrite feed_app.
    destruct (feed_line line this w Hempty Hchars Hle) as (this1 & -> & Hempty1).
    apply IH, Hempty1.
Qed.

Lemma not_CR_line_char input :
  Forall (λ c, c ≠ LF) input → Forall line_char (List.filter not_CR input).
Proof.
  induction 1 as [| c input Hc _ IH]; [done |].
  simpl. unfold not_CR at 1.
  destruct (Ascii.eqb_spec c CR); simpl; [done |]. by constructor.
Qed.

(** X9. An input without newline whose characters other than CR number
    at most 63, fed to an empty buffer, prints nothing and is accumulated
    without its CRs; the newline that follows hands exactly these
    characters to the line parser. *)
Theorem line_reconstructed input this w :
  empty_buffer this → Forall (λ c, c ≠ LF) input →
  length (List.filter not_CR input) ≤ 63 →
  (∃ this', feed input (this, w) = (this', w) ∧
            accumulated this' = List.filter not_CR input) ∧
  (∃ this', feed (input ++ [LF]) (this, w) =
              (this', processLine_ (List.filter not_CR input) w) ∧
            empty_buffer this').
Proof.
  intros Hempty Hnl Hle.
  pose proof (not_CR_line_char input Hnl) as Hall. split.
  - rewrite feed_filter_CR.
    destruct (accumulated_store (List.filter not_CR input) this w)
      as (this' & -> & _ & _ & Hacc); [done | done |].
    by exists this'.
  - rewrite feed_filter_CR, List.filter_app. simpl.
    by apply feed_line.
Qed.

(** *** Overflow *)

Lemma feed_chunk cs this w :
  empty_buffer this → Forall line_char cs → length cs = 64 →
  ∃ this', feed cs (this, w) =
             (this', mkWorld (sketch w) (trace w ++ [overflow_notice])) ∧
           empty_buffer this'.
Proof.
  intros Hempty Hall Hlen.
  rewrite <- (take_drop 63 cs) in Hall |- *.
  apply Forall_app in Hall as [Hhead Htail].
  assert (length (take 63 cs) = 63) as Hlen63 by (rewrite length_take; lia).
  destruct (drop 63 cs) as [| c [| ? ?]] eqn:Hdrop;
    try (apply (f_equal length) in Hdrop; rewrite length_drop in Hdrop;
         simpl in Hdrop; lia).
  apply Forall_cons in Htail as [Hc _].
  rewrite feed_app, (feed_full (take 63 cs)) by done.
  rewrite feed_cons, respondToByte_overflow by done. simpl.
  eexists. split; [done |]. split; [| done].
  apply inv_reset. rewrite length_app, Hlen63. done.
Qed.

Lemma overflow_rounds k : ∀ cs this w,
  empty_buffer this → Forall line_char cs → length cs / 64 = k →
  ∃ this', feed cs (this, w) =
             (this', mkWorld (sketch w) (trace w ++ replicate k overflow_notice)) ∧
           inv this' ∧ cmd_len_ this' = length cs mod 64 ∧
           accumulated this' = drop (64 * k) cs.
Proof.
  induction k as [| k IH]; intros cs this w Hempty Hall Hk.
  - assert (length cs < 64) as Hlt by (apply Nat.div_small_iff in Hk; lia).
    destruct (accumulated_store cs this w Hempty) as (this' & -> & Hinv & Hlen & Hacc).
    { split; [done | lia]. }
    exists this'. rewrite app_nil_r, Nat.mod_small by done.
    split_and!; try done. by destruct w.
  - assert (64 ≤ length cs) as Hge.
    { destruct (decide (64 ≤ length cs)); [done |].
      rewrite Nat.div_small in Hk by lia. done. }
    rewrite <- (take_drop 64 cs) in Hall. apply Forall_app in Hall as [Hhead Htail].
    assert (feed cs (this, w) = feed (drop 64 cs) (feed (take 64 cs) (this, w)))
      as -> by (by rewrite <- feed_app, take_drop).
    destruct (feed_chunk (take 64 cs) this w) as (this1 & -> & Hempty1);
      [done | done | rewrite length_take; lia |].
    assert (length (drop 64 cs) = length cs - 64) as Hdrop by apply length_drop.
    assert (length cs = length (drop 64 cs) + 1 * 64) as Hsplit by lia.
    destruct (IH (drop 64 cs) this1
                (mkWorld (sketch w) (trace w ++ [overflow_notice])))
      as (this' & -> & Hinv & Hlen & Hacc); [done | done | |].
    { rewrite Hsplit, Nat.div_add in Hk by done. lia. }
    exists this'. cbn [sketch trace replicate]. rewrite <- app_assoc.
    split_and!; try done.
    + rewrite Hlen. symmetry. rewrite Hsplit at 1. apply Nat.Div0.mod_add.
    + rewrite Hacc, drop_drop. f_equal. lia.
Qed.

(** X10. A run of characters other than CR and newline, of any length,
    fed to an empty buffer: every 64th character is dropped with one
    overflow notice, the characters after the last dropped one are what
    the buffer holds, and the sketch is neither called nor changed. *)
Theorem overflow_periodic cs this w :
  empty_buffer this → Forall line_char cs →
  ∃ this', feed cs (this, w) =
             (this', mkWorld (sketch w)
                       (trace w ++ replicate (length cs / 64) overflow_notice)) ∧
           cmd_len_ this' = length cs mod 64 ∧
           accumulated this' = drop (64 * (length cs / 64)) cs.
Proof.
  intros Hempty Hall.
  destruct (overflow_rounds (length cs / 64) cs this w Hempty Hall eq_refl)
    as (this' & Hfeed & _ & Hlen & Hacc).
  by exists this'.
Qed.

(** X11. Without a newline nothing is dispatched: whatever the state of
    the manager and whatever other bytes arrive, the sketch's state stays
    the same and the only events added are overflow notices. *)
Theorem no_newline_no_command input this w :
  Forall (λ c, c ≠ LF) input →
  ∃ k, (feed input (this, w)).2 =
         mkWorld (sketch w) (trace w ++ replicate k overflow_notice).
Proof.
  intros Hall. revert this w.
  induction Hall as [| c input Hc _ IH]; intros this w.
  - exists 0. simpl. rewrite app_nil_r. by destruct w.
  - rewrite feed_cons. unfold respondToByte at 1.
    apply Ascii.eqb_neq in Hc. rewrite Hc.
    destruct (c =? CR); [apply IH |].
    destruct (cmd_len_ this <? CMD_BUFFER_SIZE - 1)%nat; [apply IH |].
    destruct (IH (mkSerialManager (<[0:=NUL]> (cmd_buffer_ this)) 0)
                 (println (P_str "Command too long. Buffer cleared.") w))
      as [k ->].
    exists (S k). simpl. by rewrite <- app_assoc.
Qed.

(** X15. A newline always leaves an empty buffer, so the interpreter
    recovers from anything received before it: after any input closed by
    a newline, a line that fits is handed intact to the line parser. *)
Theorem newline_resynchronises input line this w :
  inv this → fits line →
  empty_buffer (feed (input ++ [LF]) (this, w)).1 ∧
  (feed ((input ++ [LF]) ++ line ++ [LF]) (this, w)).2 =
    processLine_ line (feed (input ++ [LF]) (this, w)).2.
Proof.
  intros Hinv [Hall Hle].
  assert (empty_buffer (feed (input ++ [LF]) (this, w)).1) as Hempty.
  { rewrite feed_app, feed_cons.
    pose proof (inv_feed input this w Hinv) as Hinv'.
    destruct (feed input (this, w)) as [this1 w1].
    rewrite respondToByte_LF. simpl. split; [| done].
    apply inv_reset. rewrite length_insert. apply Hinv'. }
  split; [done |].
  rewrite feed_app.
  destruct (feed (input ++ [LF]) (this, w)) as [this1 w1].
  by destruct (feed_line line this1 w1 Hempty Hall Hle) as (this' & -> & _).
Qed.

End Lines.

Section Isolation.
Context {D : Type} {SK : Sketch D} {LIB : CLibrary}.

Implicit Types (this : SerialManager) (w : World D) (c : ascii).
Implicit Types (line input : list ascii).

(** *** What lies in the array beyond the line *)

Lemma processLine_buffer this :
  inv this → processLine_ (cmd_buffer_ this) = processLine_ (accumulated this).
Proof.
  intros (_ & _ & Hnul). unfold accumulated.
  rewrite <- (take_drop_middle _ _ _ Hnul) at 1. apply processLine_app_NUL.
Qed.

Lemma accumulated_length this : inv this → length (accumulated this) = cmd_len_ this.
Proof.
  intros (Hlen & Hle & _). unfold accumulated, CMD_BUFFER_SIZE in *.
  rewrite length_take. lia.
Qed.

Lemma accumulated_after_store this c :
  inv this → cmd_len_ this < 63 →
  take (S (cmd_len_ this))
       (<[S (cmd_len_ this) := NUL]> (<[cmd_len_ this := c]> (cmd_buffer_ this))) =
  accumulated this ++ [c].
Proof.
  intros (Hlen & _ & _) Hlt. unfold accumulated, CMD_BUFFER_SIZE in *.
  rewrite take_insert_ge by lia.
  rewrite (take_S_r _ _ c) by (apply list_lookup_insert_eq; lia).
  by rewrite take_insert_ge by lia.
Qed.

Lemma same_line_step c this1 this2 w :
  inv this1 → inv this2 → accumulated this1 = accumulated this2 →
  (respondToByte c (this1, w)).2 = (respondToByte c (this2, w)).2 ∧
  accumulated (respondToByte c (this1, w)).1 =
  accumulated (respondToByte c (this2, w)).1.
Proof.
  intros Hinv1 Hinv2 Hacc.
  assert (cmd_len_ this1 = cmd_len_ this2) as Hlen.
  { by rewrite <- !accumulated_length, Hacc. }
  destruct (line_char_dec c) as [-> | [-> | Hc]].
  - by rewrite !respondToByte_CR.
  - rewrite !respondToByte_LF. simpl. split; [| done].
    rewrite !list_insert_id by (apply Hinv1 || apply Hinv2).
    by rewrite !processLine_buffer, Hacc.
  - destruct (decide (cmd_len_ this1 < 63)) as [Hlt | Hge].
    + rewrite !respondToByte_store by (done || lia). simpl. split; [done |].
      unfold accumulated at 1 2. simpl.
      rewrite !accumulated_after_store by (done || lia). by rewrite Hacc.
    + by rewrite !respondToByte_overflow by (done || lia).
Qed.

(** X12. The interpreter acts on the accumulated line only: two
    managers that hold the same line behave alike on every input,
    whatever the rest of their arrays holds (memory that the constructor
    left uninitialised, remains of earlier and longer lines). *)
Theorem buffer_remains_irrelevant input this1 this2 w :
  inv this1 → inv this2 → accumulated this1 = accumulated this2 →
  (feed input (this1, w)).2 = (feed input (this2, w)).2.
Proof.
  revert this1 this2 w.
  induction input as [| c input IH]; intros this1 this2 w Hinv1 Hinv2 Hacc; [done |].
  rewrite !feed_cons.
  destruct (same_line_step c this1 this2 w Hinv1 Hinv2 Hacc) as [Hw Hacc'].
  pose proof (inv_respondToByte c this1 w Hinv1) as Hinv1'.
  pose proof (inv_respondToByte c this2 w Hinv2) as Hinv2'.
  destruct (respondToByte c (this1, w)) as [this1' w1].
  destruct (respondToByte c (this2, w)) as [this2' w2].
  simpl in *. subst w2. by apply IH.
Qed.

(** *** Calls into the sketch *)

Lemma dispatch_events cmd has_arg arg w :
  ∃ evs, trace (dispatch cmd has_arg arg w) = trace w ++ evs ∧
         sketch (dispatch cmd has_arg arg w) = replay evs (sketch w) ∧
         length (List.filter is_call evs) ≤ 1.
Proof.
  destruct cmd as [[] [] [] [] [] [] [] []], has_arg;
    (eexists; split_and!;
     [ unfold dispatch, printHelp, seq_stmt, print_delay_ms,
         print_vol_knob_gain_dB, print, println, println0, call, emit;
       simpl; rewrite <- ?app_assoc; reflexivity
     | reflexivity
     | simpl; lia ]).
Qed.

Lemma processLine_events line w :
  ∃ evs, trace (processLine_ line w) = trace w ++ evs ∧
         sketch (processLine_ line w) = replay evs (sketch w) ∧
         length (List.filter is_call evs) ≤ 1.
Proof.
  unfold processLine_.
  destruct (deref (skip_space line) =? NUL).
  - exists []. rewrite app_nil_r. split_and!; [done | done | simpl; lia].
  - destruct (parse_arg _) as [has_arg arg]. apply dispatch_events.
Qed.

(** X13. Whatever the line, the line parser makes at most one call into
    the sketch, and the sketch's state afterwards is the effect of that
    call on the state before (the same state when there is none). *)
Theorem one_call_per_line line w :
  ∃ evs, trace (processLine_ line w) = trace w ++ evs ∧
         length (List.filter is_call evs) ≤ 1 ∧
         sketch (processLine_ line w) = replay evs (sketch w).
Proof.
  destruct (processLine_events line w) as (evs & Htrace & Hsketch & Hcalls).
  by exists evs.
Qed.

Lemma replay_app (evs1 evs2 : list event) (d : D) :
  replay (evs1 ++ evs2) d = replay evs2 (replay evs1 d).
Proof. apply fold_left_app. Qed.

Lemma respondToByte_events c this w :
  ∃ evs, trace (respondToByte c (this, w)).2 = trace w ++ evs ∧
         sketch (respondToByte c (this, w)).2 = replay evs (sketch w) ∧
         length (List.filter is_call evs) ≤ (if c =? LF then 1 else 0).
Proof.
  unfold respondToByte.
  destruct (Ascii.eqb_spec c CR) as [-> | Hcr].
  - exists []. rewrite app_nil_r. split_and!; [done | done | simpl; lia].
  - destruct (c =? LF).
    + apply processLine_events.
    + destruct (cmd_len_ this <? CMD_BUFFER_SIZE - 1)%nat.
      * exists []. rewrite app_nil_r. split_and!; [done | done | simpl; lia].
      * exists [overflow_notice]. split_and!; [done | done | simpl; lia].
Qed.

(** X14. Over any run, from any state of the manager that satisfies the
    buffer invariant: the trace only grows, the sketch's state at the end
    is the state at the start with the recorded calls applied in order
    (the interpreter changes it in no other way), and there are at most as
    many calls as newlines received. *)
Theorem calls_account_for_state input this w :
  inv this →
  ∃ evs, trace (feed input (this, w)).2 = trace w ++ evs ∧
         sketch (feed input (this, w)).2 = replay evs (sketch w) ∧
         length (List.filter is_call evs) ≤ length (List.filter (Ascii.eqb LF) input).
Proof.
  revert this w. induction input as [| c input IH]; intros this w Hinv.
  - exists []. simpl. rewrite app_nil_r. split_and!; [done | done | lia].
  - rewrite feed_cons.
    destruct (respondToByte_events c this w) as (evs1 & Ht1 & Hs1 & Hc1).
    pose proof (inv_respondToByte c this w Hinv) as Hinv1.
    destruct (respondToByte c (this, w)) as [this1 w1]. simpl in Ht1, Hs1, Hinv1.
    destruct (IH this1 w1 Hinv1) as (evs2 & Ht2 & Hs2 & Hc2).
    exists (evs1 ++ evs2).
    rewrite Ht2, Ht1, Hs2, Hs1, replay_app, app_assoc.
    split_and!; [done | done |].
    rewrite List.filter_app, length_app. cbn [List.filter].
    rewrite (Ascii.eqb_sym LF c). destruct (c =? LF); simpl; lia.
Qed.

End Isolation.

Section OverflowTail.
Context {D : Type} {SK : Sketch D} {LIB : CLibrary}.

Implicit Types (this : SerialManager) (w : World D) (c cmd : ascii).
Implicit Types (head tail rest ws : list ascii).

(** *** The tail of an overlong line *)

(** What the line parser does with a line, by its command letter. *)
Lemma processLine_outcomes ws cmd rest w :
  Forall blank ws →
  let p := c_str (skip_space rest) in
  (cmd ∈ ["h"; "?"] →
     processLine_ (ws ++ cmd :: rest) w = mkWorld (sketch w) (trace w ++ help_text)) ∧
  (cmd ∈ ["g"; "G"] →
     processLine_ (ws ++ cmd :: rest) w =
       mkWorld (printGainSettings (sketch w))
               (trace w ++ status_report (delay_ms (printGainSettings (sketch w))))) ∧
  (cmd ∈ ["c"; "C"] →
     processLine_ (ws ++ cmd :: rest) w =
       mkWorld (togglePrintMemoryAndCPU (sketch w)) (trace w ++ toggle_report)) ∧
  (cmd ∈ ["k"; "K"] →
     (∀ v n, p ≠ [] → strtof p = (v, S n) →
        processLine_ (ws ++ cmd :: rest) w =
          mkWorld (setVolKnobGain_dB v (sketch w))
                  (trace w ++ [Call_setVolKnobGain_dB v])) ∧
     (p = [] ∨ (strtof p).2 = 0 →
        processLine_ (ws ++ cmd :: rest) w =
          mkWorld (sketch w) (trace w ++ usage_k (vol_knob_gain_dB (sketch w))))) ∧
  (cmd ∈ ["d"; "D"] →
     (∀ v n, p ≠ [] → strtof p = (v, S n) →
        processLine_ (ws ++ cmd :: rest) w =
          mkWorld (setDelay_ms v (sketch w)) (trace w ++ [Call_setDelay_ms v])) ∧
     (p = [] ∨ (strtof p).2 = 0 →
        processLine_ (ws ++ cmd :: rest) w =
          mkWorld (sketch w) (trace w ++ usage_d (delay_ms (sketch w))))) ∧
  (isspace cmd = false → cmd ≠ NUL → recognized cmd = false →
     processLine_ (ws ++ cmd :: rest) w =
       mkWorld (sketch w) (trace w ++ unknown_command cmd)).
Proof.
  intros Hws p. split_and!.
  - rewrite !elem_of_cons, elem_of_nil. intros [-> | [-> | []]];
      (rewrite processLine_letter by done); apply trace_emit8.
  - rewrite !elem_of_cons, elem_of_nil. intros [-> | [-> | []]];
      (rewrite processLine_letter by done);
      unfold dispatch, seq_stmt, print_delay_ms, print, println, call, emit; simpl;
      by rewrite <- !app_assoc.
  - rewrite !elem_of_cons, elem_of_nil. intros [-> | [-> | []]];
      (rewrite processLine_letter by done);
      unfold dispatch, seq_stmt, println, call, emit; simpl;
      by rewrite <- !app_assoc.
  - rewrite !elem_of_cons, elem_of_nil. intros Hcmd. split.
    + intros v n Hne Hv.
      destruct Hcmd as [-> | [-> | []]];
        (rewrite processLine_letter by done);
        by rewrite (parse_arg_present _ v n).
    + intros Hno. apply parse_arg_absent in Hno.
      destruct Hcmd as [-> | [-> | []]];
        (rewrite processLine_letter by done); rewrite Hno;
        apply trace_usage_k.
  - rewrite !elem_of_cons, elem_of_nil. intros Hcmd. split.
    + intros v n Hne Hv.
      destruct Hcmd as [-> | [-> | []]];
        (rewrite processLine_letter by done);
        by rewrite (parse_arg_present _ v n).
    + intros Hno. apply parse_arg_absent in Hno.
      destruct Hcmd as [-> | [-> | []]];
        (rewrite processLine_letter by done); rewrite Hno;
        apply trace_usage_d.
  - intros Hsp Hnz Hrec. rewrite processLine_letter by done.
    rewrite dispatch_default by done. apply trace_emit3.
Qed.

Lemma processLine_all_blank tail w : Forall blank tail → processLine_ tail w = w.
Proof.
  intros Hall. rewrite <- (processLine_app_NUL tail []).
  apply processLine_blank. eapply Forall_impl; [exact Hall |].
  intros c Hc. unfold blank in Hc. by apply andb_true_iff in Hc as [_ ->].
Qed.

Lemma after_notice (f : D → D) w evs :
  mkWorld (f (sketch w)) ((trace w ++ [overflow_notice]) ++ evs) =
  mkWorld (f (sketch w)) (trace w ++ overflow_notice :: evs).
Proof. by rewrite <- app_assoc. Qed.

(** C10. When a line overflows, the characters that follow the dropped
    one start a new line, which is parsed and dispatched at the next
    newline.  Fed to an empty buffer, 63 stored characters, one more
    (dropped, with the overflow notice) and a tail that fits, closed by a
    newline, leave an empty buffer and the world that the line parser
    makes of the tail after the notice.  By the tail's command letter,
    the events added and the sketch's state are: for a blank tail, the
    notice alone; for [h] or [?], the notice and the help text; for [g],
    the notice, the call that prints the gain settings and the delay line;
    for [c], the notice, the confirmation and the toggle call; for [k] and
    [d], the notice and the setter call with the value [strtof] reads, or
    the notice and the usage message when no number follows; for any other
    letter, the notice and the unknown-command message. *)
Theorem overflow_tail_dispatched this w head c tail :
  empty_buffer this → length head = 63 → Forall line_char head →
  line_char c → Forall line_char tail → length tail ≤ 63 →
  let w1 := mkWorld (sketch w) (trace w ++ [overflow_notice]) in
  let out := (feed (head ++ c :: tail ++ [LF]) (this, w)).2 in
  (∃ this',
     feed (head ++ c :: tail ++ [LF]) (this, w) = (this', processLine_ tail w1) ∧
     empty_buffer this') ∧
  (Forall blank tail → out = mkWorld (sketch w) (trace w ++ [overflow_notice])) ∧
  ∀ ws cmd rest, tail = ws ++ cmd :: rest → Forall blank ws →
    let p := c_str (skip_space rest) in
    (cmd ∈ ["h"; "?"] →
       out = mkWorld (sketch w) (trace w ++ overflow_notice :: help_text)) ∧
    (cmd ∈ ["g"; "G"] →
       out = mkWorld (printGainSettings (sketch w))
               (trace w ++ overflow_notice ::
                  status_report (delay_ms (printGainSettings (sketch w))))) ∧
    (cmd ∈ ["c"; "C"] →
       out = mkWorld (togglePrintMemoryAndCPU (sketch w))
               (trace w ++ overflow_notice :: toggle_report)) ∧
    (cmd ∈ ["k"; "K"] →
       (∀ v n, p ≠ [] → strtof p = (v, S n) →
          out = mkWorld (setVolKnobGain_dB v (sketch w))
                  (trace w ++ [overflow_notice; Call_setVolKnobGain_dB v])) ∧
       (p = [] ∨ (strtof p).2 = 0 →
          out = mkWorld (sketch w)
                  (trace w ++ overflow_notice :: usage_k (vol_knob_gain_dB (sketch w))))) ∧
    (cmd ∈ ["d"; "D"] →
       (∀ v n, p ≠ [] → strtof p = (v, S n) →
          out = mkWorld (setDelay_ms v (sketch w))
                  (trace w ++ [overflow_notice; Call_setDelay_ms v])) ∧
       (p = [] ∨ (strtof p).2 = 0 →
          out = mkWorld (sketch w)
                  (trace w ++ overflow_notice :: usage_d (delay_ms (sketch w))))) ∧
    (isspace cmd = false → cmd ≠ NUL → recognized cmd = false →
       out = mkWorld (sketch w) (trace w ++ overflow_notice :: unknown_command cmd)).
Proof.
  intros Hempty Hlen Hhead Hc Htail Hle w1 out.
  assert (∃ this',
            feed (head ++ c :: tail ++ [LF]) (this, w) = (this', processLine_ tail w1) ∧
            empty_buffer this') as Hfeed.
  { rewrite feed_app, (feed_full head) by done.
    rewrite feed_cons, respondToByte_overflow by done. simpl cmd_buffer_.
    apply feed_line; [| done | done].
    split; [| done]. apply inv_reset.
    rewrite length_app, Hlen. done. }
  assert (out = processLine_ tail w1) as Hout.
  { unfold out. by destruct Hfeed as (this' & -> & _). }
  split; [exact Hfeed |]. split.
  - intros Hblank. by rewrite Hout, processLine_all_blank.
  - intros ws cmd rest -> Hws p. rewrite Hout.
    destruct (processLine_outcomes ws cmd rest w1 Hws)
      as (Hh & Hg & Hcc & Hk & Hd & Hu).
    fold p in Hk, Hd. unfold w1 in *. simpl in *.
    split_and!.
    + intros Hcmd. rewrite Hh by done. apply (after_notice id).
    + intros Hcmd. rewrite Hg by done. apply after_notice.
    + intros Hcmd. rewrite Hcc by done. apply after_notice.
    + intros Hcmd. destruct (Hk Hcmd) as [Hset Husage]. split.
      * intros v n Hne Hv. rewrite (Hset v n) by done. apply after_notice.
      * intros Hno. rewrite Husage by done. apply (after_notice id).
    + intros Hcmd. destruct (Hd Hcmd) as [Hset Husage]. split.
      * intros v n Hne Hv. rewrite (Hset v n) by done. apply after_notice.
      * intros Hno. rewrite Husage by done. apply (after_notice id).
    + intros Hsp Hnz Hrec. rewrite Hu by done. apply (after_notice id).
Qed.

End OverflowTail.

(** *** Instances of the further properties *)

Lemma blank_spaces n : Forall blank (replicate n " ").
Proof. by apply Forall_replicate. Qed.

Lemma fits_chars_k_10 : fits (chars "k 10").
Proof. split; [by simpl; repeat constructor | simpl; lia]. Qed.

Lemma fits_chars_g : fits (chars "g").
Proof. split; [by simpl; repeat constructor | simpl; lia]. Qed.

Lemma help_command_witness :
  processLine_ (replicate 2 " " ++ "?" :: chars " 10") RefSketch.world0 =
    mkWorld (sketch RefSketch.world0) (trace RefSketch.world0 ++ help_text).
Proof.
  refine (proj1 (help_command (replicate 2 " ") "?" (chars " 10")
                   RefSketch.world0 (blank_spaces 2) _)).
  rewrite !elem_of_cons. tauto.
Defined.

Lemma toggle_command_witness :
  processLine_ (replicate 2 " " ++ "C" :: chars " 10") RefSketch.world0 =
    mkWorld (togglePrintMemoryAndCPU (sketch RefSketch.world0))
            (trace RefSketch.world0 ++ toggle_report).
Proof.
  refine (toggle_command (replicate 2 " ") "C" (chars " 10")
            RefSketch.world0 (blank_spaces 2) _).
  rewrite !elem_of_cons. tauto.
Defined.

Lemma status_command_witness :
  processLine_ (replicate 2 " " ++ "G" :: chars " 10") RefSketch.world0 =
    mkWorld (printGainSettings (sketch RefSketch.world0))
            (trace RefSketch.world0 ++
             status_report (delay_ms (printGainSettings (sketch RefSketch.world0)))).
Proof.
  refine (status_command (replicate 2 " ") "G" (chars " 10")
            RefSketch.world0 (blank_spaces 2) _).
  rewrite !elem_of_cons. tauto.
Defined.

Lemma gain_command_general_witness :
  processLine_ (replicate 2 " " ++ "K" :: chars " 10abc") RefSketch.world0 =
    mkWorld (setVolKnobGain_dB float_10 (sketch RefSketch.world0))
            (trace RefSketch.world0 ++ [Call_setVolKnobGain_dB float_10]).
Proof.
  refine (proj1 (gain_command_general (replicate 2 " ") "K" (chars " 10abc")
                   RefSketch.world0 (blank_spaces 2) _) float_10 1 _ eq_refl).
  - rewrite !elem_of_cons. tauto.
  - discriminate.
Defined.

Lemma delay_command_witness :
  processLine_ (replicate 2 " " ++ "d" :: chars " abc") RefSketch.world0 =
    mkWorld (sketch RefSketch.world0)
            (trace RefSketch.world0 ++ usage_d (delay_ms (sketch RefSketch.world0))).
Proof.
  refine (proj2 (delay_command (replicate 2 " ") "d" (chars " abc")
                   RefSketch.world0 (blank_spaces 2) _) (or_intror eq_refl)).
  rewrite !elem_of_cons. tauto.
Defined.

Lemma whitespace_irrelevant_witness :
  processLine_ (replicate 2 " " ++ "k" :: replicate 3 " " ++ chars "10") RefSketch.world0 =
  processLine_ ("k" :: chars "10") RefSketch.world0.
Proof.
  exact (whitespace_irrelevant (replicate 2 " ") (replicate 3 " ") "k" (chars "10")
           RefSketch.world0 (blank_spaces 2) (blank_spaces 3) eq_refl).
Defined.

Lemma nul_truncates_line_witness :
  ∃ this', feed ((chars "k" ++ NUL :: chars " 10") ++ [LF])
             (RefSketch.fresh, RefSketch.world0) =
             (this', processLine_ (chars "k") RefSketch.world0) ∧
           empty_buffer this'.
Proof.
  refine (proj2 (nul_truncates_line (chars "k") (chars " 10")
                   RefSketch.fresh RefSketch.world0 empty_buffer_fresh _)).
  split; [by simpl; repeat constructor | simpl; lia].
Defined.

Lemma lines_compose_witness :
  ∃ this', feed (lines_input [chars "k 10"; chars "g"])
             (RefSketch.fresh, RefSketch.world0) =
             (this', fold_left (λ w line, processLine_ line w)
                       [chars "k 10"; chars "g"] RefSketch.world0) ∧
           empty_buffer this'.
Proof.
  refine (lines_compose [chars "k 10"; chars "g"] RefSketch.fresh RefSketch.world0
            empty_buffer_fresh _).
  constructor; [apply fits_chars_k_10 |].
  constructor; [apply fits_chars_g | constructor].
Defined.

Lemma line_reconstructed_witness :
  ∃ this', feed ((chars "k" ++ [CR] ++ chars " 10" ++ [CR]) ++ [LF])
             (RefSketch.fresh, RefSketch.world0) =
             (this', processLine_
                       (List.filter not_CR (chars "k" ++ [CR] ++ chars " 10" ++ [CR]))
                       RefSketch.world0) ∧
           empty_buffer this'.
Proof.
  refine (proj2 (line_reconstructed (chars "k" ++ [CR] ++ chars " 10" ++ [CR])
                   RefSketch.fresh RefSketch.world0 empty_buffer_fresh _ _)).
  - by simpl; repeat constructor.
  - simpl. lia.
Defined.

Lemma overflow_periodic_witness :
  ∃ this', feed (replicate 130 "a") (RefSketch.fresh, RefSketch.world0) =
             (this', mkWorld (sketch RefSketch.world0)
                       (trace RefSketch.world0 ++
                        replicate (length (replicate 130 "a") / 64) overflow_notice)) ∧
           cmd_len_ this' = length (replicate 130 "a") mod 64 ∧
           accumulated this' =
             drop (64 * (length (replicate 130 "a") / 64)) (replicate 130 "a").
Proof.
  refine (overflow_periodic (replicate 130 "a") RefSketch.fresh RefSketch.world0
            empty_buffer_fresh _).
  by apply line_char_letters.
Defined.

Lemma no_newline_no_command_witness :
  ∃ k, (feed (chars "k 10" ++ [CR] ++ replicate 70 "a")
          (RefSketch.fresh, RefSketch.world0)).2 =
         mkWorld (sketch RefSketch.world0)
                 (trace RefSketch.world0 ++ replicate k overflow_notice).
Proof.
  refine (no_newline_no_command (chars "k 10" ++ [CR] ++ replicate 70 "a")
            RefSketch.fresh RefSketch.world0 _).
  apply Forall_app. split; [by simpl; repeat constructor |].
  apply Forall_app. split; [by simpl; repeat constructor |].
  by apply Forall_replicate.
Defined.

Lemma buffer_remains_irrelevant_witness :
  (feed (chars "k 10" ++ [LF])
     (SerialManager_new (replicate 64 "x"), RefSketch.world0)).2 =
  (feed (chars "k 10" ++ [LF]) (RefSketch.fresh, RefSketch.world0)).2.
Proof.
  refine (buffer_remains_irrelevant (chars "k 10" ++ [LF])
            (SerialManager_new (replicate 64 "x")) RefSketch.fresh
            RefSketch.world0 _ _ eq_refl).
  - by apply inv_new.
  - by apply inv_new.
Defined.

Lemma newline_resynchronises_witness :
  (feed ((replicate 100 "a" ++ [LF]) ++ chars "k 10" ++ [LF])
     (RefSketch.fresh, RefSketch.world0)).2 =
  processLine_ (chars "k 10")
    (feed (replicate 100 "a" ++ [LF]) (RefSketch.fresh, RefSketch.world0)).2.
Proof.
  refine (proj2 (newline_resynchronises (replicate 100 "a") (chars "k 10")
                   RefSketch.fresh RefSketch.world0 _ fits_chars_k_10)).
  by apply inv_new.
Defined.

Lemma overflow_tail_dispatched_witness :
  (feed (replicate 63 "a" ++ "b" :: chars "k 10" ++ [LF])
     (RefSketch.fresh, RefSketch.world0)).2 =
  mkWorld (setVolKnobGain_dB float_10 (sketch RefSketch.world0))
          (trace RefSketch.world0 ++ [overflow_notice; Call_setVolKnobGain_dB float_10]).
Proof.
  assert (Forall line_char (replicate 63 "a")) as Hhead.
  { by apply line_char_letters. }
  assert (line_char "b") as Hc.
  { by split. }
  assert ("k" ∈ ["k"; "K"]) as Hk.
  { rewrite !elem_of_cons. tauto. }
  assert (c_str (skip_space (chars " 10")) ≠ []) as Hne.
  { discriminate. }
  destruct (overflow_tail_dispatched RefSketch.fresh RefSketch.world0
              (replicate 63 "a") "b" (chars "k 10")
              empty_buffer_fresh eq_refl Hhead Hc
              (proj1 fits_chars_k_10) (proj2 fits_chars_k_10))
    as (_ & _ & Hcases).
  destruct (Hcases [] "k" (chars " 10") eq_refl (Forall_nil_2 blank))
    as (_ & _ & _ & Hgain & _).
  exact (proj1 (Hgain Hk) float_10 1 Hne eq_refl).
Defined.

Lemma calls_account_for_state_witness :
  ∃ evs,
    trace (feed (chars "k 10" ++ [LF] ++ replicate 70 "a" ++ [LF] ++ chars "c" ++ [LF])
             (RefSketch.fresh, RefSketch.world0)).2 =
      trace RefSketch.world0 ++ evs ∧
    sketch (feed (chars "k 10" ++ [LF] ++ replicate 70 "a" ++ [LF] ++ chars "c" ++ [LF])
              (RefSketch.fresh, RefSketch.world0)).2 =
      replay evs (sketch RefSketch.world0) ∧
    length (List.filter is_call evs) ≤
      length (List.filter (Ascii.eqb LF)
                (chars "k 10" ++ [LF] ++ replicate 70 "a" ++ [LF] ++ chars "c" ++ [LF])).
Proof.
  refine (calls_account_for_state
            (chars "k 10" ++ [LF] ++ replicate 70 "a" ++ [LF] ++ chars "c" ++ [LF])
            RefSketch.fresh RefSketch.world0 _).
  by apply inv_new.
Defined.
